(** * cyberdog_gazebo: ctrl_ros/utilities/utilities.h

    A shallow embedding of the numeric helpers, of the matrix-string parser
    and of the printf-style formatter of [utilities.h], and the properties
    of them that the specification states.

    Conventions of the embedding.
    - A template parameter [T] of a numeric helper ranges over the ordered
      number types with exact arithmetic ([realDomainType]: the integers,
      the rationals, ...).  Rounding, infinities and NaN of [float] and
      [double], and the overflow of fixed-width integers, are not part of
      this model.
    - A call either returns, throws a C++ exception, stops on a failed
      [assert] (assertions are compiled in, as the header is written), or has
      undefined behaviour: see [outcome].
    - [std::string] is a sequence of characters, [std::string::at] is the
      bounds-checked access that throws [std::out_of_range]. *)

From HB Require Import structures.
From mathcomp Require Import ssreflect ssrfun ssrbool eqtype ssrnat seq div.
From mathcomp Require Import order ssralg ssrnum ssrint rat.
From Stdlib Require Import Ascii String ZArith Lia.

Set Implicit Arguments.
Unset Strict Implicit.
Unset Printing Implicit Defensive.

Import Order.TTheory GRing.Theory Num.Theory.

(** ** Outcomes of a call *)

(** The exceptions the header can raise, directly or through the standard
    library: [std::out_of_range] ([std::string::at], [std::stod]),
    [std::invalid_argument] ([std::stod]) and [std::runtime_error]. *)
Inductive exception : Type :=
  | out_of_range
  | invalid_argument
  | runtime_error (what : string).

Inductive outcome (A : Type) : Type :=
  | Ret (a : A)              (* normal return *)
  | Throw (e : exception)    (* an exception leaves the function *)
  | AssertFail               (* a failed assert: the program is aborted *)
  | Undefined.               (* undefined behaviour of the language *)

Arguments Ret {A} a.
Arguments Throw {A} e.
Arguments AssertFail {A}.
Arguments Undefined {A}.

Definition bind {A B : Type} (c : outcome A) (k : A -> outcome B) : outcome B :=
  match c with
  | Ret a => k a
  | Throw e => Throw e
  | AssertFail => AssertFail
  | Undefined => Undefined
  end.

Declare Scope outcome_scope.
Delimit Scope outcome_scope with outcome.
Notation "x <- c ;; k" := (bind c (fun x => k))
  (at level 61, c at next level, right associativity) : outcome_scope.
Notation "' p <- c ;; k" := (bind c (fun x => let p := x in k))
  (at level 61, p pattern, c at next level, right associativity) : outcome_scope.
Local Open Scope outcome_scope.

Definition returns {A : Type} (c : outcome A) : bool :=
  if c is Ret _ then true else false.

Definition throws {A : Type} (c : outcome A) : bool :=
  if c is Throw _ then true else false.

(** The call returns or throws: no failed assertion, no undefined behaviour. *)
Definition defined {A : Type} (c : outcome A) : bool := returns c || throws c.

(** ** Scalars *)




(** [std::max(a, b)] is [(a < b) ? b : a] and [std::min(a, b)] is
    [(b < a) ? b : a]. *)
Definition std_max (T : realDomainType) (a b : T) : T :=
  if (a < b)%R then b else a.
Definition std_min (T : realDomainType) (a b : T) : T :=
  if (b < a)%R then b else a.

(** ** Numerical comparison *)

Section Numeric.

Local Open Scope ring_scope.

Variable T : realDomainType.
Implicit Types (a b tol x range target lo hi : T).


(** [WrapRange] (l. 64-74), with its [assert(min <= max)]. *)
Definition WrapRange target lo hi : outcome T :=
  let result := target in
  if ~~ (lo <= hi) then AssertFail else
  let result := if result < lo then lo else result in
  let result := if hi < result then hi else result in
  Ret result.

(** [ApplyDeadband(x, range)] (l. 83-87). *)
Definition ApplyDeadband x range : T :=
  let x := if (x < range) && (x > - range) then 0 else x in
  x.

(** The overload [ApplyDeadband(x, range, min, max)] (l. 98-102). *)
Definition ApplyDeadbandClamp x range lo hi : T :=
  let x := if (x < range) && (x > - range) then 0 else x in
  std_min (std_max x lo) hi.

End Numeric.


(** ** Strings *)

HB.instance Definition _ := hasDecEq.Build ascii Ascii.eqb_spec.

Definition NUL : ascii := Ascii.zero.

(** [str.at(pos)]: bounds-checked access. *)
Definition string_at (str : seq ascii) (pos : nat) : outcome ascii :=
  if pos < size str then Ret (nth NUL str pos) else Throw out_of_range.

(** [str.substr(start, n)]: throws when [start] is beyond the end, and stops
    at the end of the string. *)
Definition substr (str : seq ascii) (start n : nat) : outcome (seq ascii) :=
  if start <= size str then Ret (take n (drop start str)) else Throw out_of_range.

(** [while (continue(str.at(pos))) pos++;] on the characters [rest] that
    start at index [pos].  The loop ends on the first character that fails
    [continue], or with the exception of [at] behind the last character. *)
Fixpoint seek (continue : pred ascii) (rest : seq ascii) (pos : nat) : outcome nat :=
  if rest is c :: rest' then
    if continue c then seek continue rest' pos.+1 else Ret pos
  else Throw out_of_range.

Definition seek_while (continue : pred ascii) (str : seq ascii) (pos : nat)
  : outcome nat :=
  seek continue (drop pos str) pos.

(** [for (int k = i; k < i + n; k++) body(k)] on a state of type [St]. *)
Fixpoint for_loop (St : Type) (n i : nat) (body : nat -> St -> outcome St) (s : St)
  : outcome St :=
  if n is n'.+1 then s' <- body i s ;; for_loop n' i.+1 body s' else Ret s.

(** ** String to number, string to matrix *)

Section Parser.

Variable T : Type.

(** [std::stod] (for [double]) or [std::stof] (for [float]) of the standard
    library: the value of the longest numeric prefix, or the exception
    ([std::invalid_argument], [std::out_of_range]) it throws. *)
Variable stod : seq ascii -> exception + T.

(** [StringToNumber] (l. 206-215). *)
Definition StringToNumber (str : seq ascii) : outcome T :=
  match stod str with
  | inr v => Ret v
  | inl e => Throw e
  end.

(** [Eigen::Matrix<T, Rows, Cols>]: the coefficient at [(i, j)], [None] while
    it has not been written (the default constructor initialises nothing). *)
Definition Matrix : Type := nat -> nat -> option T.

Definition uninitialized : Matrix := fun _ _ => None.

(** [m(i, j) = v] *)
Definition assign (m : Matrix) (i j : nat) (v : T) : Matrix :=
  fun i' j' => if (i' == i) && (j' == j) then Some v else m i' j'.

Definition is_space : pred ascii := fun c => c == " "%char.
Definition not_delimiter : pred ascii :=
  fun c => (c != ","%char) && (c != "]"%char).

(** The body of the inner loop of [StringToEigen] (l. 249-258), on the
    state [(m, pos)]. *)
Definition parse_cell (str : seq ascii) (i j : nat) (s : Matrix * nat)
  : outcome (Matrix * nat) :=
  let: (m, pos) := s in
  pos <- seek_while is_space str pos ;;
  let start := pos in
  pos <- seek_while not_delimiter str pos ;;
  number <- substr str start (pos - start) ;;
  v <- StringToNumber number ;;
  Ret (assign m i j v, pos.+1).

(** [StringToEigen] (l. 233-262). *)
Definition StringToEigen (Rows Cols : nat) (str : seq ascii) : outcome Matrix :=
  let m := uninitialized in
  let pos := 0%nat in
  pos <- seek_while is_space str pos ;;
  c <- string_at str pos ;;
  pos <- (if c == "["%char then Ret pos.+1
          else Throw (runtime_error "StringToEigen didn't find open bracket")) ;;
  s <- for_loop Rows 0 (fun i => for_loop Cols 0 (fun j => parse_cell str i j))
         (m, pos) ;;
  Ret s.1.

(** The exception of a missing opening bracket. *)
Definition no_bracket : exception :=
  runtime_error "StringToEigen didn't find open bracket".

(** The coefficients of row [i] from column [j] on, and of the rows from
    [i] on, written one after the other. *)
Fixpoint assign_row (m : Matrix) (i j : nat) (vs : seq T) : Matrix :=
  if vs is v :: vs' then assign_row (assign m i j v) i j.+1 vs' else m.

Fixpoint assign_rows (Cols : nat) (m : Matrix) (i Rows : nat) (vs : seq T) : Matrix :=
  if Rows is Rows'.+1 then
    assign_rows Cols (assign_row m i 0 (take Cols vs)) i.+1 Rows' (drop Cols vs)
  else m.

(** The coefficients of row [i], columns [0 .. Cols-1]. *)
Definition row (Cols : nat) (m : Matrix) (i : nat) : seq (option T) :=
  [seq m i j | j <- iota 0 Cols].

End Parser.

(** ** The grammar of a matrix string

    What the parser reads for one coefficient: blanks, the text of the
    number, and the character that ends it, a comma or a closing bracket.
    The text of the number has no comma and no closing bracket and does not
    start with a blank. *)

Record cell : Type := Cell {
  blanks : seq ascii;
  number : seq ascii;
  closer : ascii
}.

Definition cell_text (c : cell) : seq ascii :=
  blanks c ++ number c ++ [:: closer c].

Definition well_formed (c : cell) : bool :=
  [&& all is_space (blanks c), all not_delimiter (number c),
      ~~ is_space (head (closer c) (number c)) & ~~ not_delimiter (closer c)].

Definition cells_text (cs : seq cell) : seq ascii :=
  flatten [seq cell_text c | c <- cs].

(** Blanks, the opening bracket, the cells one after the other, and any
    text behind the last closer. *)
Definition matrix_text (lead : seq ascii) (cs : seq cell) (rest : seq ascii)
  : seq ascii :=
  lead ++ "["%char :: cells_text cs ++ rest.

(** The numbers of the cells [cs] convert to the values [vs]. *)
Definition values (T : Type) (stod : seq ascii -> exception + T)
    (cs : seq cell) (vs : seq T) : Prop :=
  [seq stod (number c) | c <- cs] = [seq inr v | v <- vs].

(** The number of commas and closing brackets of a string. *)
Definition delimiters (str : seq ascii) : nat :=
  count (predC not_delimiter) str.

(** A string literal as a [std::string]. *)
Definition text (s : string) : seq ascii := list_ascii_of_string s.

(** ** A decimal [std::stod]

    [std::stod] on decimal literals, computed exactly in [rat]: optional
    white space, an optional sign, digits with an optional fraction, an
    optional exponent; the longest such prefix is converted and what follows
    is ignored; [std::invalid_argument] when there is no digit.  The rounding
    to the nearest [double], the range error, hexadecimal literals,
    infinities and NaN are not covered.  It instantiates the parser on
    concrete strings. *)

Definition isspace (c : ascii) : bool :=
  c \in [:: " "; "009"; "010"; "011"; "012"; "013"]%char.

Definition digit (c : ascii) : option nat :=
  let n := nat_of_ascii c in
  if (48 <= n) && (n <= 57) then Some (n - 48) else None.

Fixpoint skip_space (s : seq ascii) : seq ascii :=
  if s is c :: s' then if isspace c then skip_space s' else s else s.

Definition read_sign (s : seq ascii) : bool * seq ascii :=
  match s with
  | c :: s' =>
      if c == "-"%char then (true, s')
      else if c == "+"%char then (false, s') else (false, s)
  | [::] => (false, s)
  end.

(** Reads a run of digits: the number read so far, how many digits were
    read, and what follows. *)
Fixpoint read_digits (s : seq ascii) (acc count : nat) : nat * nat * seq ascii :=
  if s is c :: s' then
    if digit c is Some d then read_digits s' (10 * acc + d) count.+1
    else (acc, count, s)
  else (acc, count, s).

Definition read_exponent (s : seq ascii) : int :=
  match s with
  | c :: s' =>
      if (c == "e"%char) || (c == "E"%char) then
        let: (negative, s'') := read_sign s' in
        let: (e, count, _) := read_digits s'' 0 0 in
        if count == 0 then 0%R else if negative then (- e%:Z)%R else (e%:Z)%R
      else 0%R
  | [::] => 0%R
  end.

Definition stod_decimal (str : seq ascii) : exception + rat :=
  let s := skip_space str in
  let: (negative, s) := read_sign s in
  let: (int_part, int_count, s) := read_digits s 0 0 in
  let: (mantissa, count, s) :=
    match s with
    | c :: s' =>
        if c == "."%char then read_digits s' int_part int_count
        else (int_part, int_count, s)
    | [::] => (int_part, int_count, s)
    end in
  if count == 0 then inl invalid_argument
  else
    let scale : int := (read_exponent s - (count - int_count)%nat%:Z)%R in
    let value : rat := (mantissa%:Q * 10%:Q ^ scale)%R in
    inr (if negative then (- value)%R else value).

(** ** Printf-style formatting *)

Definition INT_MAX : Z := 2147483647.
Definition INT_MIN : Z := (- 2147483648)%Z.

(** [a + b] on [int]: signed overflow is undefined behaviour. *)
Definition int_add (a b : Z) : outcome Z :=
  let r := (a + b)%Z in
  if (INT_MIN <=? r)%Z && (r <=? INT_MAX)%Z then Ret r else Undefined.

Section Format.

(** The variadic arguments of the call. *)
Variable Args : Type.

(** What the C library makes of a format string and its arguments: the
    characters of the expansion, or a failure (an encoding error), which
    [snprintf] reports with a negative [int]: [- (k + 1)], at least
    [INT_MIN]. *)
Inductive expansion : Type :=
  | Chars (s : seq ascii)
  | Failure (k : nat).

Variable vformat : seq ascii -> Args -> expansion.

(** [snprintf(buf, n, format, args...)]: the value returned and the
    characters stored in [buf].  At most [n - 1] characters of the expansion
    are stored, followed by the terminating null; nothing is stored when [n]
    is 0.  The value returned is the length of the whole expansion; an
    expansion longer than [INT_MAX] is a failure. *)
Definition snprintf (n : nat) (format : seq ascii) (args : Args) : Z * seq ascii :=
  match vformat format args with
  | Chars s =>
      if (Z.of_nat (size s) <=? INT_MAX)%Z
      then (Z.of_nat (size s), if n is n'.+1 then rcons (take n' s) NUL else [::])
      else ((-1)%Z, [::])
  | Failure k => (Z.max INT_MIN (- Z.of_nat k.+1), [::])
  end.

(** The exception of [StringFormat]. *)
Definition format_error : exception := runtime_error "Error during formatting.".

(** [StringFormat] (l. 272-280). *)
Definition StringFormat (format : seq ascii) (args : Args) : outcome (seq ascii) :=
  size <- int_add (snprintf 0 format args).1 1 ;;
  if (size <=? 0)%Z then Throw (runtime_error "Error during formatting.")
  else
    let buf := (snprintf (Z.to_nat size) format args).2 in
    Ret (take (Z.to_nat size - 1) buf).

End Format.

(** * Properties *)

(** ** Instances of [arithType] *)





(** ** Tolerant equality, clamping, deadband *)

Section NumericTheory.

Local Open Scope ring_scope.

Variable T : realDomainType.
Implicit Types (a b tol x range lo hi : T).



Lemma std_min_le a hi : std_min a hi <= hi.
Proof. by rewrite /std_min; case: ltP. Qed.

Lemma std_max_ge a lo : lo <= std_max a lo.
Proof. by rewrite /std_max; case: ltP => // /ltW. Qed.

Lemma deadband_cond x range : (x < range) && (x > - range) = (`|x| < range).
Proof. by rewrite ltr_norml andbC. Qed.

Lemma WrapRange_ret x lo hi :
  lo <= hi ->
  WrapRange x lo hi = Ret (if hi < (if x < lo then lo else x) then hi
                           else if x < lo then lo else x).
Proof. by rewrite /WrapRange => ->. Qed.

Lemma WrapRange_inside x lo hi : lo <= x <= hi -> WrapRange x lo hi = Ret x.
Proof.
case/andP=> lox xhi; rewrite WrapRange_ret ?(le_trans lox) //.
by rewrite [x < lo]ltNge lox /= ltNge xhi.
Qed.

End NumericTheory.

Local Open Scope ring_scope.



(** C2.  When [lo <= hi], [WrapRange x lo hi] returns a value of [[lo, hi]],
    which is [x] when [x] is in [[lo, hi]] already, and clamping that value
    again returns it; clamping twice is clamping once.  When [lo <= hi] does
    not hold the assertion fails: the call neither returns nor throws. *)
Theorem WrapRange_spec (T : realDomainType) (x lo hi : T) :
  [/\ lo <= hi ->
        exists r : T,
          [/\ WrapRange x lo hi = Ret r, lo <= r <= hi,
              lo <= x <= hi -> r = x & WrapRange r lo hi = Ret r],
      (r <- WrapRange x lo hi ;; WrapRange r lo hi) = WrapRange x lo hi &
      ~~ (lo <= hi) ->
        [/\ WrapRange x lo hi = AssertFail,
            returns (WrapRange x lo hi) = false &
            throws (WrapRange x lo hi) = false]].
Proof.
have inside: lo <= hi ->
    exists2 r : T, WrapRange x lo hi = Ret r & lo <= r <= hi.
  move=> lohi; rewrite WrapRange_ret //; eexists; first by [].
  case: (ltP x lo) => [xlo|lox]; first by rewrite ltNge lohi /= lexx.
  by case: (ltP hi x) => [/ltW hix|xhi]; rewrite ?lohi ?lexx ?lox ?xhi.
split.
- move=> lohi; have [r eq_r r_in] := inside lohi.
  exists r; split=> //; last exact: WrapRange_inside.
  by move=> /WrapRange_inside; rewrite eq_r => -[].
- case lohi: (lo <= hi); last by rewrite /WrapRange lohi.
  by have [r -> /= /WrapRange_inside] := inside lohi.
- by rewrite /WrapRange => /negbTE ->.
Qed.

Lemma WrapRange_spec_witness :
  let x : int := 5 in let lo : int := 0 in let hi : int := 3 in
  [/\ lo <= hi, ~~ (hi <= lo),
      WrapRange x lo hi = Ret hi, WrapRange x hi lo = AssertFail &
      exists r : int,
        [/\ WrapRange x lo hi = Ret r, lo <= r <= hi,
            lo <= x <= hi -> r = x & WrapRange r lo hi = Ret r]].
Proof.
have [ok _ _] := WrapRange_spec (5 : int) 0 3.
have [_ _ ko] := WrapRange_spec (5 : int) 3 0.
split; [reflexivity | reflexivity | reflexivity | | exact: ok].
by case: ko.
Defined.

(** C3.  The deadband without clamping returns 0 when [|x| < range] and
    [x] itself when [|x| >= range]; at [x = range] and at [x = - range] the
    input is returned. *)
Theorem ApplyDeadband_spec (T : realDomainType) (x range : T) :
  [/\ `|x| < range -> ApplyDeadband x range = 0,
      range <= `|x| -> ApplyDeadband x range = x,
      ApplyDeadband range range = range &
      ApplyDeadband (- range) range = - range].
Proof.
rewrite /ApplyDeadband !deadband_cond; split.
- by move=> ->.
- by rewrite leNgt => /negbTE ->.
- by rewrite ltNge ler_norm.
- by rewrite normrN ltNge ler_norm.
Qed.

Lemma ApplyDeadband_spec_witness :
  [/\ `|1 : int| < 2, (2 : int) <= `|- 7 : int|,
      ApplyDeadband (1 : int) 2 = 0 & ApplyDeadband (- 7 : int) 2 = - 7].
Proof.
have [inside _ _ _] := ApplyDeadband_spec (1 : int) 2.
have [_ outside _ _] := ApplyDeadband_spec (- 7 : int) 2.
split; [reflexivity | reflexivity | exact: inside | exact: outside].
Defined.

(** C10.  The deadband with clamping is total: for all [x], [range], [lo]
    and [hi] it is [std::min(std::max(x', lo), hi)] for the deadbanded [x'],
    its result is at most [hi], and when [lo > hi] it is [hi] whatever [x]
    is, where [WrapRange] stops on its assertion. *)
Theorem ApplyDeadbandClamp_spec (T : realDomainType) (x range lo hi : T) :
  [/\ ApplyDeadbandClamp x range lo hi
        = std_min (std_max (ApplyDeadband x range) lo) hi,
      ApplyDeadbandClamp x range lo hi <= hi &
      hi < lo ->
        ApplyDeadbandClamp x range lo hi = hi
        /\ WrapRange (ApplyDeadband x range) lo hi = AssertFail].
Proof.
split=> //; first exact: std_min_le.
move=> hilo; split; last by rewrite /WrapRange leNgt hilo.
rewrite /ApplyDeadbandClamp /std_min.
by rewrite (lt_le_trans hilo) // std_max_ge.
Qed.

Lemma ApplyDeadbandClamp_spec_witness :
  let x : int := 9 in let range : int := 1 in
  let lo : int := 4 in let hi : int := 2 in
  [/\ hi < lo, ApplyDeadbandClamp x range lo hi = hi &
      WrapRange (ApplyDeadband x range) lo hi = AssertFail].
Proof.
have [_ _ inverted] := ApplyDeadbandClamp_spec (9 : int) 1 4 2.
by split; [reflexivity | case: inverted | case: inverted].
Defined.



Local Close Scope ring_scope.

(** ** Outcomes and loops *)

Lemma bind_ret_inv (A B : Type) (c : outcome A) (k : A -> outcome B) (b : B) :
  bind c k = Ret b -> exists2 a, c = Ret a & k a = Ret b.
Proof. by case: c => //= a; exists a. Qed.

(** [unbind a eq]: from [bind c k = Ret b] on top of the goal to [a] with
    [eq : c = Ret a], leaving [k a = Ret b] on top. *)
Ltac unbind a eq :=
  let E := fresh "E" in move=> E; have [a eq {E}] := bind_ret_inv E.

Lemma bind_Ret (A B : Type) (a : A) (k : A -> outcome B) : bind (Ret a) k = k a.
Proof. by []. Qed.

Lemma defined_bind (A B : Type) (c : outcome A) (k : A -> outcome B) :
  defined c -> (forall a, defined (k a)) -> defined (bind c k).
Proof. by case: c => //= a _ k_ok; exact: k_ok. Qed.

Lemma defined_throws (A : Type) (c : outcome A) :
  defined c -> ~~ returns c -> exists e, c = Throw e.
Proof. by case: c => // e _ _; exists e. Qed.

(** The loop equation of [seek_while]: one test of [str.at(pos)], then the
    loop again on the next position. *)
Lemma seek_whileE (continue : pred ascii) (str : seq ascii) (pos : nat) :
  seek_while continue str pos
  = (c <- string_at str pos ;;
     if continue c then seek_while continue str pos.+1 else Ret pos).
Proof.
rewrite /seek_while /string_at; case: ltnP => [inside|outside] /=.
  by rewrite (drop_nth NUL inside).
by rewrite drop_oversize.
Qed.

Lemma seek_defined (continue : pred ascii) (rest : seq ascii) (pos : nat) :
  defined (seek continue rest pos).
Proof. by elim: rest pos => [|c rest IH] pos //=; case: ifP. Qed.

Lemma seek_ret (continue : pred ascii) (rest : seq ascii) (pos pos' : nat) :
  seek continue rest pos = Ret pos' ->
  [/\ pos <= pos', pos' - pos < size rest &
      ~~ continue (nth NUL rest (pos' - pos))].
Proof.
elim: rest pos => [|c rest IH] pos //=.
case: ifP => [_ /IH [lt_pos in_rest stop]|/negbT stop [<-]]; last by rewrite subnn.
have ->: pos' - pos = (pos' - pos.+1).+1 by rewrite subnS prednK // subn_gt0.
by split=> //; exact: ltnW.
Qed.

Lemma seek_while_ret (continue : pred ascii) (str : seq ascii) (pos pos' : nat) :
  seek_while continue str pos = Ret pos' ->
  [/\ pos <= pos', pos' < size str & ~~ continue (nth NUL str pos')].
Proof.
case/seek_ret=> le_pos; rewrite size_drop nth_drop subnKC // => in_str stop.
split=> //; rewrite -(subnKC le_pos) -ltn_subRL.
exact: in_str.
Qed.

(** A run of characters that pass the test, followed by one that fails it. *)
Lemma seek_cat (continue : pred ascii) (run : seq ascii) (c : ascii)
    (rest : seq ascii) (pos : nat) :
  all continue run -> ~~ continue c ->
  seek continue (run ++ c :: rest) pos = Ret (pos + size run).
Proof.
elim: run pos => [|x run IH] pos /=; first by rewrite addn0 => _ /negbTE ->.
by case/andP=> -> run_ok stop; rewrite IH // addSnnS.
Qed.

Lemma for_loopS (St : Type) (body : nat -> St -> outcome St) (n i : nat) (s : St) :
  for_loop n.+1 i body s = bind (body i s) (for_loop n i.+1 body).
Proof. by []. Qed.

Lemma for_loop_inv (St : Type) (I : nat -> St -> Prop)
    (body : nat -> St -> outcome St) (n i : nat) (s s' : St) :
  (forall k t t', i <= k < i + n -> I k t -> body k t = Ret t' -> I k.+1 t') ->
  I i s -> for_loop n i body s = Ret s' -> I (i + n) s'.
Proof.
elim: n i s => [|n IH] i s step Is /=; first by case=> <-; rewrite addn0.
unbind t eq_t; rewrite addnS -addSn; apply: IH.
  move=> k u u' /andP[ik kn]; apply: step.
  by rewrite (ltnW ik) addnS -addSn.
by apply: step eq_t => //; rewrite leqnn addnS ltnS leq_addr.
Qed.

Lemma for_loop_defined (St : Type) (body : nat -> St -> outcome St)
    (n i : nat) (s : St) :
  (forall k t, defined (body k t)) -> defined (for_loop n i body s).
Proof.
move=> body_ok; elim: n i s => [|n IH] i s //=.
by apply: defined_bind => // t; exact: IH.
Qed.

(** ** The parser *)

Section ParserTheory.

Variable T : Type.
Variable stod : seq ascii -> exception + T.

Notation Matrix := (Matrix T).
Notation parse_cell := (parse_cell stod).
Notation StringToEigen := (StringToEigen stod).
Notation values := (values stod).

Lemma StringToNumber_defined (str : seq ascii) : defined (StringToNumber stod str).
Proof. by rewrite /StringToNumber; case: stod. Qed.

Lemma parse_cell_defined (str : seq ascii) (i j : nat) (s : Matrix * nat) :
  defined (parse_cell str i j s).
Proof.
case: s => m pos; rewrite /parse_cell.
apply: defined_bind => [|p1]; first exact: seek_defined.
apply: defined_bind => [|p2]; first exact: seek_defined.
apply: defined_bind => [|tok]; first by rewrite /substr; case: ifP.
by apply: defined_bind => [|v] //; exact: StringToNumber_defined.
Qed.

Lemma StringToEigen_defined (Rows Cols : nat) (str : seq ascii) :
  defined (StringToEigen Rows Cols str).
Proof.
rewrite /StringToEigen.
apply: defined_bind => [|p]; first exact: seek_defined.
apply: defined_bind => [|c]; first by rewrite /string_at; case: ifP.
apply: defined_bind => [|p']; first by case: ifP.
apply: defined_bind => [|s] //; apply: for_loop_defined => i s.
by apply: for_loop_defined => j t; exact: parse_cell_defined.
Qed.

(** What a cell that was parsed did: it wrote one coefficient, and it
    stepped over one delimiter of the string. *)
Lemma parse_cell_ret (str : seq ascii) (i j : nat) (m m' : Matrix) (pos pos' : nat) :
  parse_cell str i j (m, pos) = Ret (m', pos') ->
  (exists v, m' = assign m i j v) /\
  [/\ pos < pos', pos' <= size str & ~~ not_delimiter (nth NUL str pos'.-1)].
Proof.
rewrite /parse_cell.
unbind p1 eq1; unbind p2 eq2; unbind tok eq_tok; unbind v eq_v => -[<- <-].
have [le1 _ _] := seek_while_ret eq1; have [le2 in_str stop] := seek_while_ret eq2.
split; first by exists v.
by split=> //; rewrite ltnS (leq_trans le1).
Qed.

Lemma delimiters_step (str : seq ascii) (pos pos' : nat) :
  pos < pos' -> pos' <= size str -> ~~ not_delimiter (nth NUL str pos'.-1) ->
  delimiters (drop pos' str) < delimiters (drop pos str).
Proof.
case: pos' => // p; rewrite ltnS /= => le_pos in_str stop.
have ->: drop pos str
         = take (p - pos) (drop pos str) ++ nth NUL str p :: drop p.+1 str.
  by rewrite -{1}(cat_take_drop (p - pos) (drop pos str)) drop_drop subnK //
             (drop_nth NUL in_str).
by rewrite /delimiters count_cat /= stop add1n addnS ltnS leq_addl.
Qed.

Lemma for_loop_measure (St : Type) (mu : St -> nat) (d : nat)
    (body : nat -> St -> outcome St) (n i : nat) (s s' : St) :
  (forall k t t', body k t = Ret t' -> mu t' + d <= mu t) ->
  for_loop n i body s = Ret s' -> mu s' + n * d <= mu s.
Proof.
move=> step; elim: n i s => [|n IH] i s /=; first by case=> <-; rewrite addn0.
unbind t eq_t => /IH le_t; apply: leq_trans (step _ _ _ eq_t).
by rewrite mulSn addnCA addnC leq_add2r.
Qed.

(** Every cell of the two loops steps over a delimiter of its own. *)
Lemma loops_delimiters (Rows Cols : nat) (str : seq ascii) (s s' : Matrix * nat) :
  for_loop Rows 0 (fun i => for_loop Cols 0 (fun j => parse_cell str i j)) s
    = Ret s' ->
  delimiters (drop s'.2 str) + Rows * Cols <= delimiters (drop s.2 str).
Proof.
pose mu (t : Matrix * nat) := delimiters (drop t.2 str).
move=> loops; apply: (for_loop_measure (mu := mu) (d := Cols) _ loops) => i t t'.
rewrite -{2}[Cols]muln1 => row; apply: (for_loop_measure (mu := mu) _ row).
move=> j [m pos] [m' pos'] /parse_cell_ret[_ [lt_pos in_str stop]].
by rewrite /mu addn1; exact: delimiters_step.
Qed.

Lemma assign_written (m : Matrix) (i j : nat) (v : T) (i' j' : nat) :
  m i' j' -> assign m i j v i' j'.
Proof. by rewrite /assign; case: ifP. Qed.

Lemma row_loop_written (Cols : nat) (str : seq ascii) (i : nat) (s s' : Matrix * nat) :
  for_loop Cols 0 (fun j => parse_cell str i j) s = Ret s' ->
  (forall i' j', s.1 i' j' -> s'.1 i' j') /\ (forall j, j < Cols -> s'.1 i j).
Proof.
pose I k (t : Matrix * nat) :=
  (forall i' j', s.1 i' j' -> t.1 i' j') /\ (forall j, j < k -> t.1 i j).
apply: (@for_loop_inv _ I) => // j [m pos] [m' pos'] _ [keeps row_ok].
case/parse_cell_ret=> -[v ->] _; split=> [i' j' /keeps|j']; first exact: assign_written.
rewrite ltnS leq_eqVlt => /orP[/eqP->|/row_ok]; last exact: assign_written.
by rewrite /= /assign !eqxx.
Qed.

(** A matrix that is returned has all its coefficients written. *)
Lemma loops_written (Rows Cols : nat) (str : seq ascii) (s s' : Matrix * nat) :
  for_loop Rows 0 (fun i => for_loop Cols 0 (fun j => parse_cell str i j)) s
    = Ret s' ->
  forall i j, i < Rows -> j < Cols -> s'.1 i j.
Proof.
pose I k (t : Matrix * nat) := forall i j, i < k -> j < Cols -> t.1 i j.
apply: (@for_loop_inv _ I) => // i t t' _ rows_ok /row_loop_written[keeps row_ok].
move=> i' j; rewrite ltnS leq_eqVlt => /orP[/eqP->|lt_i] lt_j; first exact: row_ok.
by apply: keeps; exact: rows_ok.
Qed.

(** *** Well-formed input *)

Lemma delimiter_not_space (c : ascii) : ~~ not_delimiter c -> ~~ is_space c.
Proof.
rewrite /not_delimiter /is_space negb_and !negbK.
by case/orP=> /eqP->.
Qed.

Lemma seek_while_cat (continue : pred ascii) (pre run : seq ascii) (c : ascii)
    (rest : seq ascii) :
  all continue run -> ~~ continue c ->
  seek_while continue (pre ++ run ++ c :: rest) (size pre)
    = Ret (size pre + size run).
Proof. by move=> run_ok stop; rewrite /seek_while drop_size_cat // seek_cat. Qed.

(** On a well-formed cell the two scans find the text of the number, which
    is handed to [StringToNumber]. *)
Lemma parse_cell_scan (str pre rest : seq ascii) (c : cell) (i j : nat) (m : Matrix) :
  str = pre ++ cell_text c ++ rest -> well_formed c ->
  parse_cell str i j (m, size pre)
    = (v <- StringToNumber stod (number c) ;;
       Ret (assign m i j v, size (pre ++ cell_text c))).
Proof.
case: c => sp tok d; rewrite /cell_text /= -!catA catA /= => eq_str.
case/and4P=> /= sp_ok tok_ok start_ok d_ok.
have eq1: seek_while is_space str (size pre) = Ret (size (pre ++ sp)).
  rewrite size_cat eq_str -catA.
  have ->: tok ++ d :: rest = head d tok :: behead (tok ++ d :: rest).
    by case: (tok).
  by apply: seek_while_cat => //; case: (tok) start_ok.
have eq2: seek_while not_delimiter str (size (pre ++ sp))
          = Ret (size (pre ++ sp) + size tok).
  by rewrite eq_str; exact: seek_while_cat.
have eq3: substr str (size (pre ++ sp)) (size tok) = Ret tok.
  rewrite /substr eq_str drop_size_cat // take_size_cat //.
  by rewrite [size (_ ++ _ ++ _)]size_cat leq_addr.
rewrite /parse_cell eq1 /= eq2 /= addKn eq3 /=.
by rewrite !size_cat /= addn1 addnA addnS.
Qed.

Lemma parse_cell_ok (str pre rest : seq ascii) (c : cell) (v : T) (i j : nat)
    (m : Matrix) :
  str = pre ++ cell_text c ++ rest ->
  well_formed c -> stod (number c) = inr v ->
  parse_cell str i j (m, size pre)
    = Ret (assign m i j v, size (pre ++ cell_text c)).
Proof.
by move=> eq_str c_ok eq_v; rewrite (parse_cell_scan _ _ _ eq_str) // /StringToNumber eq_v.
Qed.

(** The conversion of the number fails: its exception leaves the cell. *)
Lemma parse_cell_bad_number (str pre rest : seq ascii) (c : cell) (e : exception)
    (i j : nat) (m : Matrix) :
  str = pre ++ cell_text c ++ rest ->
  well_formed c -> stod (number c) = inl e ->
  parse_cell str i j (m, size pre) = Throw e.
Proof.
by move=> eq_str c_ok eq_e; rewrite (parse_cell_scan _ _ _ eq_str) // /StringToNumber eq_e.
Qed.

Lemma cells_text_cons (c : cell) (cs : seq cell) :
  cells_text (c :: cs) = cell_text c ++ cells_text cs.
Proof. by []. Qed.

Lemma cells_text_cat (cs1 cs2 : seq cell) :
  cells_text (cs1 ++ cs2) = cells_text cs1 ++ cells_text cs2.
Proof. by rewrite /cells_text map_cat flatten_cat. Qed.

Lemma row_loop_ok (str : seq ascii) (i : nat) (cs : seq cell) (vs : seq T)
    (j : nat) (m : Matrix) (pre rest : seq ascii) :
  str = pre ++ cells_text cs ++ rest ->
  all well_formed cs -> values cs vs ->
  for_loop (size cs) j (fun j => parse_cell str i j) (m, size pre)
  = Ret (assign_row m i j vs, size (pre ++ cells_text cs)).
Proof.
elim: cs vs j m pre => [|c cs IH] [|v vs] j m pre //; first by rewrite cats0.
rewrite cells_text_cons -catA => eq_str /andP[c_ok cs_ok] [eq_v eq_vs].
rewrite [size _]/= for_loopS (parse_cell_ok _ _ _ eq_str c_ok eq_v) bind_Ret.
rewrite (IH vs) //; first by rewrite eq_str catA.
by rewrite [in RHS]catA.
Qed.

Lemma loops_ok (str : seq ascii) (Cols Rows i : nat) (cs : seq cell) (vs : seq T)
    (m : Matrix) (pre rest : seq ascii) :
  str = pre ++ cells_text cs ++ rest ->
  size cs = Rows * Cols -> all well_formed cs -> values cs vs ->
  for_loop Rows i (fun i => for_loop Cols 0 (fun j => parse_cell str i j))
    (m, size pre)
  = Ret (assign_rows Cols m i Rows vs, size (pre ++ cells_text cs)).
Proof.
elim: Rows i cs vs m pre => [|Rows IH] i cs vs m pre.
  by move=> _ /size0nil-> _ _; rewrite cats0.
rewrite mulSn /values => eq_str size_cs cs_ok eq_vs.
have size_row: size (take Cols cs) = Cols by rewrite size_takel // size_cs leq_addr.
have eq_row: str = pre ++ cells_text (take Cols cs)
                       ++ (cells_text (drop Cols cs) ++ rest).
  by rewrite [cells_text (take _ _) ++ _]catA -cells_text_cat cat_take_drop.
have row_vs: values (take Cols cs) (take Cols vs).
  by rewrite /values !map_take eq_vs.
have /andP[row_ok rows_ok]:
    all well_formed (take Cols cs) && all well_formed (drop Cols cs).
  by rewrite -all_cat cat_take_drop.
rewrite for_loopS -{1}size_row (row_loop_ok _ _ _ eq_row row_ok row_vs) bind_Ret.
rewrite (IH _ (drop Cols cs) (drop Cols vs))
        ?size_drop ?size_cs ?addKn //.
- by rewrite eq_row catA.
- by rewrite /values !map_drop eq_vs.
- by rewrite -catA -cells_text_cat cat_take_drop.
Qed.

Lemma onth_take (A : Type) (n : nat) (s : seq A) (k : nat) :
  k < n -> onth (take n s) k = onth s k.
Proof. by move=> lt_k; rewrite !onthE map_take nth_take. Qed.

Lemma onth_drop (A : Type) (n : nat) (s : seq A) (k : nat) :
  onth (drop n s) k = onth s (n + k).
Proof. by rewrite !onthE map_drop nth_drop. Qed.

Lemma assign_row_get (m : Matrix) (i j : nat) (vs : seq T) (i' j' : nat) :
  assign_row m i j vs i' j'
  = if (i' == i) && (j <= j' < j + size vs) then onth vs (j' - j) else m i' j'.
Proof.
elim: vs m j => [|v vs IH] m j /=.
  by rewrite addn0 leqNgt andNb andbF.
rewrite IH /assign addSnnS; case: (i' == i) => //=.
case: (ltngtP j j') => [lt_j|//|->] /=; last by rewrite subnn addnS ltnS leq_addr.
by have ->: j' - j = (j' - j.+1).+1 by rewrite subnS prednK // subn_gt0.
Qed.

Lemma assign_rows_other (Cols : nat) (m : Matrix) (i0 Rows : nat) (vs : seq T)
    (i j : nat) :
  i < i0 -> assign_rows Cols m i0 Rows vs i j = m i j.
Proof.
elim: Rows m i0 vs => [|Rows IH] m i0 vs lt_i //=.
by rewrite (IH _ _ _ (leqW lt_i)) assign_row_get (ltn_eqF lt_i).
Qed.

(** Row-major order: the coefficient at [(i, j)] is the value at index
    [i * Cols + j] of the flat list. *)
Lemma assign_rows_get (Cols : nat) (m : Matrix) (i0 Rows : nat) (vs : seq T)
    (i j : nat) :
  size vs = Rows * Cols -> i0 <= i < i0 + Rows -> j < Cols ->
  assign_rows Cols m i0 Rows vs i j = onth vs ((i - i0) * Cols + j).
Proof.
elim: Rows m i0 vs => [|Rows IH] m i0 vs /=.
  by rewrite addn0 leqNgt andNb.
rewrite mulSn => size_vs /andP[]; rewrite leq_eqVlt => /orP[/eqP<- _|lt_i in_rows] lt_j.
  rewrite assign_rows_other // assign_row_get eqxx /= size_takel ?size_vs ?leq_addr //.
  by rewrite lt_j subn0 subnn mul0n add0n onth_take.
rewrite IH ?size_drop ?size_vs ?addKn ?lt_i ?addSnnS // onth_drop.
by rewrite addnA -mulSn -subSn // subSS.
Qed.

Lemma seek_all (continue : pred ascii) (run : seq ascii) (pos : nat) :
  all continue run -> seek continue run pos = Throw out_of_range.
Proof. by elim: run pos => [|c run IH] pos //= /andP[-> /IH]. Qed.

Lemma seek_blanks (lead : seq ascii) (c : ascii) (rest : seq ascii) :
  all is_space lead -> ~~ is_space c ->
  seek_while is_space (lead ++ c :: rest) 0 = Ret (size lead).
Proof. by move=> lead_ok stop; rewrite (seek_while_cat [::]). Qed.

Lemma string_at_cat (lead : seq ascii) (c : ascii) (rest : seq ascii) :
  string_at (lead ++ c :: rest) (size lead) = Ret c.
Proof.
by rewrite /string_at size_cat /= -addn1 leq_add2l /= nth_cat ltnn subnn.
Qed.

Lemma StringToEigen_no_bracket (Rows Cols : nat) (lead : seq ascii) (c : ascii)
    (rest : seq ascii) :
  all is_space lead -> ~~ is_space c -> c != "["%char ->
  StringToEigen Rows Cols (lead ++ c :: rest) = Throw no_bracket.
Proof.
move=> lead_ok not_space /negbTE not_bracket.
by rewrite /StringToEigen seek_blanks //= string_at_cat /= not_bracket.
Qed.

Lemma StringToEigen_blank (Rows Cols : nat) (str : seq ascii) :
  all is_space str -> StringToEigen Rows Cols str = Throw out_of_range.
Proof. by move=> blank; rewrite /StringToEigen /seek_while drop0 seek_all. Qed.

(** The loops on a well-formed text from the position behind the bracket. *)
Lemma StringToEigen_loops (Rows Cols : nat) (lead : seq ascii) (cs : seq cell)
    (rest : seq ascii) :
  all is_space lead ->
  StringToEigen Rows Cols (matrix_text lead cs rest)
  = (s <- for_loop Rows 0
            (fun i => for_loop Cols 0
                        (fun j => parse_cell (matrix_text lead cs rest) i j))
            (uninitialized T, size (rcons lead "["%char)) ;;
     Ret s.1).
Proof.
move=> lead_ok; rewrite /StringToEigen {1 2}/matrix_text.
by rewrite seek_blanks //= string_at_cat /= size_rcons.
Qed.

Lemma StringToEigen_ok (Rows Cols : nat) (lead : seq ascii) (cs : seq cell)
    (vs : seq T) (rest : seq ascii) :
  all is_space lead -> size cs = Rows * Cols -> all well_formed cs ->
  values cs vs ->
  StringToEigen Rows Cols (matrix_text lead cs rest)
  = Ret (assign_rows Cols (uninitialized T) 0 Rows vs).
Proof.
move=> lead_ok size_cs cs_ok eq_vs; rewrite StringToEigen_loops //.
rewrite (@loops_ok _ Cols Rows 0 cs vs _ _ rest) //.
by rewrite /matrix_text -cats1 -catA.
Qed.

Lemma values_size (cs : seq cell) (vs : seq T) : values cs vs -> size vs = size cs.
Proof. by move/(congr1 size); rewrite !size_map. Qed.

(** *** Truncated input *)

Lemma seek_cases (continue : pred ascii) (rest : seq ascii) (pos : nat) :
  seek continue rest pos = Throw out_of_range
  \/ exists pos', seek continue rest pos = Ret pos'.
Proof.
elim: rest pos => [|c rest IH] pos /=; first by left.
by case: ifP => // _; right; exists pos.
Qed.

Lemma all_drop_suffix (A : Type) (a : pred A) (n : nat) (s : seq A) :
  all a s -> all a (drop n s).
Proof. by rewrite -{1}(cat_take_drop n s) all_cat => /andP[]. Qed.

(** Behind the last delimiter of the string a cell cannot end: [at] throws. *)
Lemma parse_cell_truncated (str pre tail : seq ascii) (i j : nat) (m : Matrix) :
  str = pre ++ tail -> all not_delimiter tail ->
  parse_cell str i j (m, size pre) = Throw out_of_range.
Proof.
move=> eq_str tail_ok; rewrite /parse_cell.
case: (seek_cases is_space (drop (size pre) str) (size pre)) => [|[p1 eq1]].
  by rewrite /seek_while => ->.
have [le1 _ _] := seek_while_ret eq1.
rewrite /seek_while eq1 bind_Ret eq_str drop_cat ltnNge le1 /=.
by rewrite seek_all //; exact: all_drop_suffix.
Qed.

(** *** The first error ends the parse

    After the cells [cs], which are parsed, comes a position where a cell
    throws [e]: then the loops throw [e], whatever is behind. *)

Lemma row_loop_throw (str : seq ascii) (e : exception) (i : nat) (cs : seq cell)
    (vs : seq T) (n j : nat) (m : Matrix) (pre : seq ascii) :
  (forall i j m, parse_cell str i j (m, size (pre ++ cells_text cs)) = Throw e) ->
  (exists rest, str = pre ++ cells_text cs ++ rest) ->
  all well_formed cs -> values cs vs -> size cs < n ->
  for_loop n j (fun j => parse_cell str i j) (m, size pre) = Throw e.
Proof.
elim: cs vs n j m pre => [|c cs IH] [|v vs] [|n] j m pre //.
  by rewrite cats0 => stop _ _ _ _; rewrite for_loopS stop.
rewrite cells_text_cons catA => stop [rest eq_str] /andP[c_ok cs_ok] [eq_v eq_vs].
move: eq_str; rewrite -catA => eq_str.
rewrite for_loopS (parse_cell_ok _ _ _ eq_str c_ok eq_v) bind_Ret /= ltnS => lt_n.
by rewrite (IH vs) //; exists rest; rewrite eq_str catA.
Qed.

Lemma loops_throw (str : seq ascii) (e : exception) (Cols Rows i : nat)
    (cs : seq cell) (vs : seq T) (m : Matrix) (pre : seq ascii) :
  (forall i j m, parse_cell str i j (m, size (pre ++ cells_text cs)) = Throw e) ->
  (exists rest, str = pre ++ cells_text cs ++ rest) ->
  all well_formed cs -> values cs vs -> size cs < Rows * Cols ->
  for_loop Rows i (fun i => for_loop Cols 0 (fun j => parse_cell str i j))
    (m, size pre)
  = Throw e.
Proof.
elim: Rows i cs vs m pre => [|Rows IH] i cs vs m pre //.
rewrite mulSn /values => stop [rest eq_str] cs_ok eq_vs lt_size; rewrite for_loopS.
case: (ltnP (size cs) Cols) => [lt_row|ge_row].
  by rewrite (@row_loop_throw str e i cs vs Cols 0 m pre) //; exists rest.
have size_row: size (take Cols cs) = Cols by rewrite size_takel.
have eq_row: str = pre ++ cells_text (take Cols cs)
                       ++ (cells_text (drop Cols cs) ++ rest).
  by rewrite [cells_text (take _ _) ++ _]catA -cells_text_cat cat_take_drop.
have row_vs: values (take Cols cs) (take Cols vs).
  by rewrite /values !map_take eq_vs.
have /andP[row_ok rows_ok]:
    all well_formed (take Cols cs) && all well_formed (drop Cols cs).
  by rewrite -all_cat cat_take_drop.
rewrite -{1}size_row (row_loop_ok _ _ _ eq_row row_ok row_vs) bind_Ret.
rewrite (IH _ (drop Cols cs) (drop Cols vs)) //.
- by rewrite -catA -cells_text_cat cat_take_drop.
- by exists rest; rewrite eq_row catA.
- by rewrite /values !map_drop eq_vs.
- by rewrite size_drop ltn_subLR.
Qed.

Lemma StringToEigen_throw (e : exception) (Rows Cols : nat) (lead : seq ascii)
    (cs : seq cell) (vs : seq T) (rest : seq ascii) :
  let str := matrix_text lead cs rest in
  (forall i j m,
     parse_cell str i j (m, size (rcons lead "["%char ++ cells_text cs)) = Throw e) ->
  all is_space lead -> all well_formed cs -> values cs vs ->
  size cs < Rows * Cols ->
  StringToEigen Rows Cols str = Throw e.
Proof.
move=> str stop lead_ok cs_ok eq_vs lt_size; rewrite /str StringToEigen_loops //.
rewrite (@loops_throw _ e Cols Rows 0 cs vs) //.
by exists rest; rewrite /matrix_text -cats1 -catA.
Qed.

(** The text ends before [Rows * Cols] numbers were read. *)
Lemma StringToEigen_truncated (Rows Cols : nat) (lead : seq ascii) (cs : seq cell)
    (vs : seq T) (tail : seq ascii) :
  all is_space lead -> all well_formed cs -> values cs vs ->
  all not_delimiter tail -> size cs < Rows * Cols ->
  StringToEigen Rows Cols (matrix_text lead cs tail) = Throw out_of_range.
Proof.
move=> lead_ok cs_ok eq_vs tail_ok; apply: StringToEigen_throw eq_vs => // i j m.
by apply: parse_cell_truncated tail_ok; rewrite /matrix_text -cats1 -!catA.
Qed.

(** A number that does not convert: its exception ends the parse, whatever
    follows it. *)
Lemma StringToEigen_bad_number (e : exception) (Rows Cols : nat) (lead : seq ascii)
    (cs : seq cell) (vs : seq T) (c : cell) (rest : seq ascii) :
  all is_space lead -> all well_formed cs -> values cs vs ->
  well_formed c -> stod (number c) = inl e -> size cs < Rows * Cols ->
  StringToEigen Rows Cols (lead ++ "["%char :: cells_text cs ++ cell_text c ++ rest)
    = Throw e.
Proof.
move=> lead_ok cs_ok eq_vs c_ok eq_e.
apply: (@StringToEigen_throw e Rows Cols lead cs vs (cell_text c ++ rest)) => //.
move=> i j m; apply: parse_cell_bad_number c_ok eq_e.
by rewrite /matrix_text -cats1 -!catA.
Qed.

(** Too few commas and brackets for [Rows * Cols] numbers. *)
Lemma StringToEigen_few_delimiters (Rows Cols : nat) (str : seq ascii) :
  delimiters str < Rows * Cols -> exists e, StringToEigen Rows Cols str = Throw e.
Proof.
move=> few; apply: defined_throws (StringToEigen_defined Rows Cols str) _.
apply/negP; case eq_m: (StringToEigen _ _ _) => [m|||] // _.
move: eq_m; rewrite /StringToEigen.
unbind p0 eq0; unbind c eq_c; unbind p1 eq1; unbind s eq_s => _.
have := loops_delimiters eq_s; rewrite leqNgt => /negP[].
apply: leq_trans (leq_addl _ _); apply: leq_ltn_trans few.
by rewrite /delimiters -{2}(cat_take_drop p1 str) count_cat leq_addl.
Qed.

(** A matrix that is returned is complete. *)
Lemma StringToEigen_complete (Rows Cols : nat) (str : seq ascii) (m : Matrix) :
  StringToEigen Rows Cols str = Ret m ->
  forall i j, i < Rows -> j < Cols -> m i j.
Proof.
rewrite /StringToEigen.
unbind p0 eq0; unbind c eq_c; unbind p1 eq1; unbind s eq_s => -[<-].
exact: loops_written eq_s.
Qed.

End ParserTheory.

Local Open Scope ring_scope.

(** C4.  ["[1,2,3,4]"] parsed as a 2x2 matrix gives the rows [[1, 2]] and
    [[3, 4]].  In general, for a text of [Rows * Cols] numbers, each closed by
    a comma or a bracket, the parse returns the matrix whose coefficient
    [(i, j)] is the number at index [i * Cols + j] of the flat list: row-major
    order. *)
Theorem StringToEigen_row_major :
  (exists m : Matrix rat,
     [/\ StringToEigen stod_decimal 2 2 (text "[1,2,3,4]") = Ret m,
         row 2 m 0 = [:: Some 1%:Q; Some 2%:Q] &
         row 2 m 1 = [:: Some 3%:Q; Some 4%:Q]])
  /\
  (forall (T : Type) (stod : seq ascii -> exception + T) (Rows Cols : nat)
          (lead : seq ascii) (cs : seq cell) (vs : seq T) (rest : seq ascii),
     all is_space lead -> size cs = (Rows * Cols)%nat -> all well_formed cs ->
     values stod cs vs ->
     exists m : Matrix T,
       StringToEigen stod Rows Cols (matrix_text lead cs rest) = Ret m
       /\ forall i j : nat, (i < Rows)%nat -> (j < Cols)%nat ->
            m i j = onth vs (i * Cols + j)%nat).
Proof.
split; first by eexists; split; [vm_compute; reflexivity | |].
move=> T stod Rows Cols lead cs vs rest lead_ok size_cs cs_ok eq_vs.
exists (assign_rows Cols (uninitialized T) 0 Rows vs).
split=> [|i j lt_i lt_j]; first exact: StringToEigen_ok.
by rewrite assign_rows_get ?subn0 // (values_size eq_vs).
Qed.

Lemma StringToEigen_row_major_witness :
  let lead := text "  " in
  let cs := [:: Cell (text "") (text "1") ","; Cell (text " ") (text "2.5") ",";
                Cell (text "") (text "-3") ","; Cell (text "") (text "4e1") "]"] in
  let vs := [:: 1%:Q; 5%:Q / 2%:Q; - 3%:Q; 40%:Q] in
  matrix_text lead cs [::] = text "  [1, 2.5,-3,4e1]" /\
  [/\ all is_space lead, size cs = (2 * 2)%nat, all well_formed cs,
      values stod_decimal cs vs &
      exists m : Matrix rat,
        StringToEigen stod_decimal 2 2 (matrix_text lead cs [::]) = Ret m
        /\ forall i j : nat, (i < 2)%nat -> (j < 2)%nat ->
             m i j = onth vs (i * 2 + j)%nat].
Proof.
have [_ general] := StringToEigen_row_major.
split; first reflexivity.
split; [reflexivity | reflexivity | reflexivity | reflexivity |].
by apply: general; reflexivity.
Defined.

(** C5.  [StringToEigen] throws when the first character that is not a
    blank is not the opening bracket, and when the pass runs past the end of
    the string: on a blank string, on a text that ends before [Rows * Cols]
    numbers were read, and on any string with fewer than [Rows * Cols]
    commas and brackets.  The first exception ends the parse, whatever
    follows in the string, and a matrix that is returned has every coefficient
    written: there is no partial result.  The position only moves forward. *)
Theorem StringToEigen_fails (T : Type) (stod : seq ascii -> exception + T)
    (Rows Cols : nat) :
  [/\ forall (lead : seq ascii) (c : ascii) (rest : seq ascii),
        all is_space lead -> ~~ is_space c -> c != "["%char ->
        StringToEigen stod Rows Cols (lead ++ c :: rest) = Throw no_bracket,
      forall str : seq ascii,
        (all is_space str ->
           StringToEigen stod Rows Cols str = Throw out_of_range)
        /\ ((delimiters str < Rows * Cols)%nat ->
              exists e, StringToEigen stod Rows Cols str = Throw e),
      forall (lead : seq ascii) (cs : seq cell) (vs : seq T) (tail : seq ascii),
        all is_space lead -> all well_formed cs -> values stod cs vs ->
        all not_delimiter tail -> (size cs < Rows * Cols)%nat ->
        StringToEigen stod Rows Cols (matrix_text lead cs tail)
          = Throw out_of_range,
      forall (lead : seq ascii) (cs : seq cell) (vs : seq T) (c : cell)
             (e : exception) (rest : seq ascii),
        all is_space lead -> all well_formed cs -> values stod cs vs ->
        well_formed c -> stod (number c) = inl e ->
        (size cs < Rows * Cols)%nat ->
        StringToEigen stod Rows Cols
          (lead ++ "["%char :: cells_text cs ++ cell_text c ++ rest)
          = Throw e &
      (forall (str : seq ascii) (m : Matrix T),
         StringToEigen stod Rows Cols str = Ret m ->
         forall i j : nat, (i < Rows)%nat -> (j < Cols)%nat -> m i j)
      /\ (forall (str : seq ascii) (i j : nat) (m m' : Matrix T) (pos pos' : nat),
            parse_cell stod str i j (m, pos) = Ret (m', pos') ->
            (pos < pos' <= size str)%nat)].
Proof.
split.
- by move=> lead c rest; exact: StringToEigen_no_bracket.
- move=> str; split; first exact: StringToEigen_blank.
  exact: StringToEigen_few_delimiters.
- by move=> lead cs vs tail; exact: StringToEigen_truncated.
- move=> lead cs vs c e rest lead_ok cs_ok eq_vs c_ok eq_e lt_size.
  exact: (@StringToEigen_bad_number _ _ e Rows Cols lead cs vs c rest).
- split=> [str m|str i j m m' pos pos']; first exact: StringToEigen_complete.
  by case/parse_cell_ret=> _ [-> ->].
Qed.

Lemma StringToEigen_fails_witness :
  [/\ StringToEigen stod_decimal 2 2 (text " 1,2,3,4]") = Throw no_bracket,
      StringToEigen stod_decimal 2 2 (text "   ") = Throw out_of_range,
      StringToEigen stod_decimal 2 2 (text "[1,2,3") = Throw out_of_range,
      StringToEigen stod_decimal 2 2 (text "[1,x,3,4]") = Throw invalid_argument &
      exists e, StringToEigen stod_decimal 2 2 (text "[1,2,3]") = Throw e].
Proof.
have [bracket blank truncated bad_number _] := @StringToEigen_fails rat stod_decimal 2 2.
split.
- exact: (bracket (text " ") "1"%char (text ",2,3,4]")).
- by have [all_blank _] := blank (text "   "); apply: all_blank; reflexivity.
- pose cs := [:: Cell [::] (text "1") ","; Cell [::] (text "2") ","].
  by apply: (truncated [::] cs [:: 1%:Q; 2%:Q] (text "3")); reflexivity.
- pose c := Cell [::] (text "x") ",".
  by apply: (bad_number [::] [:: Cell [::] (text "1") ","] [:: 1%:Q] c
               invalid_argument (text "3,4]")); reflexivity.
- by have [_ few] := blank (text "[1,2,3]"); apply: few; reflexivity.
Defined.

(** C9.  The character that ends a number is not checked to be the one the
    position asks for, and what follows the last of them is not read:
    ["[1,2,3,4,5,6]"] parsed as a 2x2 matrix returns the rows [[1, 2]] and
    [[3, 4]]; so does ["[1,2,3,4,"].  In general two texts with the same
    numbers return the same matrix, whichever of the comma and the bracket
    ends each number and whatever follows the last one. *)
Theorem StringToEigen_trailing :
  [/\ exists m : Matrix rat,
        [/\ StringToEigen stod_decimal 2 2 (text "[1,2,3,4,5,6]") = Ret m,
            row 2 m 0 = [:: Some 1%:Q; Some 2%:Q] &
            row 2 m 1 = [:: Some 3%:Q; Some 4%:Q]],
      exists m : Matrix rat,
        [/\ StringToEigen stod_decimal 2 2 (text "[1,2,3,4,") = Ret m,
            row 2 m 0 = [:: Some 1%:Q; Some 2%:Q] &
            row 2 m 1 = [:: Some 3%:Q; Some 4%:Q]] &
      forall (T : Type) (stod : seq ascii -> exception + T) (Rows Cols : nat)
             (lead lead' : seq ascii) (cs cs' : seq cell) (vs : seq T)
             (rest rest' : seq ascii),
        all is_space lead -> all is_space lead' ->
        size cs = (Rows * Cols)%nat ->
        all well_formed cs -> all well_formed cs' ->
        [seq number c | c <- cs'] = [seq number c | c <- cs] ->
        values stod cs vs ->
        exists m : Matrix T,
          [/\ StringToEigen stod Rows Cols (matrix_text lead cs rest) = Ret m,
              StringToEigen stod Rows Cols (matrix_text lead' cs' rest') = Ret m &
              forall i j : nat, (i < Rows)%nat -> (j < Cols)%nat ->
                m i j = onth vs (i * Cols + j)%nat]].
Proof.
split; try by eexists; split; [vm_compute; reflexivity | |].
move=> T stod Rows Cols lead lead' cs cs' vs rest rest'.
move=> lead_ok lead_ok' size_cs cs_ok cs_ok' eq_numbers eq_vs.
have eq_vs': values stod cs' vs.
  by rewrite /values -eq_vs (map_comp stod number) eq_numbers -map_comp.
have size_cs': size cs' = (Rows * Cols)%nat.
  by rewrite -size_cs -(size_map number cs') eq_numbers size_map.
exists (assign_rows Cols (uninitialized T) 0 Rows vs); split.
- exact: StringToEigen_ok.
- exact: StringToEigen_ok.
- move=> i j lt_i lt_j.
  by rewrite assign_rows_get ?subn0 // (values_size eq_vs).
Qed.

Lemma StringToEigen_trailing_witness :
  let cs := [:: Cell [::] (text "1") ","; Cell [::] (text "2") ",";
                Cell [::] (text "3") ","; Cell [::] (text "4") "]"] in
  let cs' := [:: Cell [::] (text "1") "]"; Cell [::] (text "2") "]";
                 Cell [::] (text "3") ","; Cell [::] (text "4") ","] in
  let vs := [:: 1%:Q; 2%:Q; 3%:Q; 4%:Q] in
  (matrix_text [::] cs [::] = text "[1,2,3,4]"
   /\ matrix_text (text " ") cs' (text "5,6]") = text " [1]2]3,4,5,6]")
  /\ exists m : Matrix rat,
       [/\ StringToEigen stod_decimal 2 2 (text "[1,2,3,4]") = Ret m,
           StringToEigen stod_decimal 2 2 (text " [1]2]3,4,5,6]") = Ret m &
           forall i j : nat, (i < 2)%nat -> (j < 2)%nat ->
             m i j = onth vs (i * 2 + j)%nat].
Proof.
move=> cs cs' vs; have [_ _ general] := StringToEigen_trailing.
split; first by split; reflexivity.
by apply: (general rat stod_decimal 2%nat 2%nat [::] (text " ") cs cs' vs
             [::] (text "5,6]")); reflexivity.
Defined.

Local Close Scope ring_scope.

(** ** The formatter *)

Section FormatTheory.

Variable Args : Type.
Variable vformat : seq ascii -> Args -> expansion.

Notation snprintf := (snprintf vformat).
Notation StringFormat := (StringFormat vformat).

Lemma snprintf_range (n : nat) (format : seq ascii) (args : Args) :
  (INT_MIN <= (snprintf n format args).1 <= INT_MAX)%Z.
Proof.
rewrite /snprintf /INT_MIN /INT_MAX; case: vformat => [s|k] /=; last lia.
by case: Z.leb_spec => /=; lia.
Qed.

Lemma snprintf_Chars (n : nat) (format : seq ascii) (args : Args) (s : seq ascii) :
  vformat format args = Chars s -> (Z.of_nat (size s) <= INT_MAX)%Z ->
  snprintf n format args
  = (Z.of_nat (size s), if n is n'.+1 then rcons (take n' s) NUL else [::]).
Proof. by rewrite /snprintf => -> /Z.leb_le ->. Qed.

Lemma snprintf_nonneg (format : seq ascii) (args : Args) :
  (0 <= (snprintf 0 format args).1)%Z ->
  exists2 s, vformat format args = Chars s
           & (snprintf 0 format args).1 = Z.of_nat (size s).
Proof.
rewrite /snprintf /INT_MIN; case: vformat => [s|k] /=; last lia.
by case: Z.leb_spec => //= _ _; exists s.
Qed.

Lemma StringFormat_throws (format : seq ascii) (args : Args) :
  StringFormat format args = Throw format_error
  <-> ((snprintf 0 format args).1 < 0)%Z.
Proof.
have:= snprintf_range 0 format args.
rewrite /StringFormat /int_add /INT_MIN /INT_MAX => -[lo hi].
case: Z.leb_spec => /= [_|]; last lia.
case: Z.leb_spec => /= [_|over]; last by split=> //; lia.
by case: Z.leb_spec => /= ?; split=> //; lia.
Qed.

Lemma StringFormat_throw_inv (format : seq ascii) (args : Args) (e : exception) :
  StringFormat format args = Throw e -> e = format_error.
Proof.
rewrite /StringFormat /int_add; case: ifP => //= _.
by case: ifP => // _ [<-].
Qed.

Lemma StringFormat_Chars (format : seq ascii) (args : Args) (s : seq ascii) :
  vformat format args = Chars s -> (Z.of_nat (size s) < INT_MAX)%Z ->
  StringFormat format args = Ret s.
Proof.
move=> eq_s fits; have le_max: (Z.of_nat (size s) <= INT_MAX)%Z by lia.
rewrite /StringFormat !(snprintf_Chars _ eq_s le_max) /int_add /=.
have ->: (INT_MIN <=? Z.of_nat (size s) + 1)%Z = true.
  by apply/Z.leb_le; rewrite /INT_MIN; lia.
have ->: (Z.of_nat (size s) + 1 <=? INT_MAX)%Z = true.
  by apply/Z.leb_le; move: fits; rewrite /INT_MAX; lia.
rewrite /=.
have ->: (Z.of_nat (size s) + 1 <=? 0)%Z = false by apply/Z.leb_gt; lia.
have ->: Z.to_nat (Z.of_nat (size s) + 1) = (size s).+1 by lia.
by rewrite (snprintf_Chars _ eq_s le_max) subn1 /= take_size -cats1 take_size_cat.
Qed.

End FormatTheory.

(** C8.  [StringFormat] measures the expansion with a trial [snprintf] on an
    empty buffer, formats into a buffer of that length plus one, which holds
    the expansion and its terminating null, and returns the expansion
    without the null (for an expansion shorter than [INT_MAX], so that the
    length plus one is an [int]).  It throws exactly when the trial reports a
    negative length; a trial that reports 0 returns the empty string. *)
Theorem StringFormat_spec (Args : Type) (vformat : seq ascii -> Args -> expansion)
    (format : seq ascii) (args : Args) :
  let trial := (snprintf vformat 0 format args).1 in
  [/\ StringFormat vformat format args = Throw format_error <-> (trial < 0)%Z,
      throws (StringFormat vformat format args) <-> (trial < 0)%Z,
      forall s : seq ascii,
        vformat format args = Chars s -> (Z.of_nat (size s) < INT_MAX)%Z ->
        [/\ trial = Z.of_nat (size s),
            snprintf vformat (Z.to_nat (trial + 1)) format args
              = (trial, rcons s NUL) &
            StringFormat vformat format args = Ret s] &
      trial = 0%Z -> StringFormat vformat format args = Ret [::]].
Proof.
move=> trial; have throwsE := StringFormat_throws vformat format args.
split=> //.
- split=> [|/throwsE-> //].
  case eq_r: (StringFormat _ _ _) => [|e||] // _; apply/throwsE.
  by rewrite eq_r (StringFormat_throw_inv eq_r).
- move=> s eq_s fits; have le_max: (Z.of_nat (size s) <= INT_MAX)%Z by lia.
  have eq_trial: trial = Z.of_nat (size s).
    by rewrite /trial (snprintf_Chars _ eq_s le_max).
  split=> //; last exact: StringFormat_Chars.
  have ->: Z.to_nat (trial + 1) = (size s).+1 by lia.
  by rewrite (snprintf_Chars _ eq_s le_max) take_size -eq_trial.
- move=> trial0; have [|s eq_s eq_size] := @snprintf_nonneg _ vformat format args.
    by rewrite -/trial trial0.
  have size0: size s = 0%nat by move: eq_size; rewrite -/trial trial0; lia.
  have fits: (Z.of_nat (size s) < INT_MAX)%Z by rewrite size0 /INT_MAX; lia.
  by rewrite (StringFormat_Chars eq_s fits); case: (s) size0.
Qed.

Lemma StringFormat_spec_witness :
  let vformat (format : seq ascii) (ok : bool) :=
    if ok then Chars format else Failure 0 in
  [/\ (Z.of_nat (size (text "abc")) < INT_MAX)%Z,
      StringFormat vformat (text "abc") true = Ret (text "abc"),
      StringFormat vformat (text "") true = Ret [::],
      ((snprintf vformat 0 (text "abc") false).1 < 0)%Z &
      StringFormat vformat (text "abc") false = Throw format_error].
Proof.
move=> vformat.
have [_ _ expands _] := StringFormat_spec vformat (text "abc") true.
have [_ _ _ empty] := StringFormat_spec vformat (text "") true.
have [[_ failed] _ _ _] := StringFormat_spec vformat (text "abc") false.
split; [reflexivity | | exact: empty | reflexivity | exact: failed].
by have [] := expands (text "abc") (erefl _) (erefl _).
Defined.
